(** * Reading-progress store of the MOEX course site

    A shallow embedding of [src/context/ProgressContext.tsx] (the
    [ProgressProvider] state container and the [useProgress] hook) and of its
    two consumers, the sidebar [LinkWrapper] and the page [FooterWrapper],
    together with the two built-ins the provider calls, [JSON.parse] and
    [JSON.stringify], and the [localStorage] slot it reads and writes.

    JavaScript strings are sequences of UTF-16 code units; a code unit is
    modelled as a number of [N] and a string as a list of them. *)

From Stdlib Require Import List NArith Ascii String Bool Lia.
From stdpp Require Import base option list gmap.
Import ListNotations.

#[local] Set Warnings "-register-all".

Local Open Scope N_scope.

(** ** Strings *)

Abbreviation code_unit := N (only parsing).
Abbreviation jsstring := (list N) (only parsing).

(** An ASCII literal of the source as a JavaScript string. *)
Definition js (s : string) : jsstring :=
  List.map N_of_ascii (list_ascii_of_string s).

(** [a === b] on strings. *)
Definition str_eqb (a b : jsstring) : bool := bool_decide (a = b).

(** [s.startsWith(p)], as a regular expression anchored with [^] tests it. *)
Fixpoint starts_with (p s : jsstring) : bool :=
  match p, s with
  | [], _ => true
  | _ :: _, [] => false
  | x :: p', y :: s' => N.eqb x y && starts_with p' s'
  end.

(** [String.prototype.includes]: [needle] occurs in [s] as a substring. *)
Fixpoint String_includes (s needle : jsstring) : bool :=
  starts_with needle s ||
  match s with
  | [] => false
  | _ :: s' => String_includes s' needle
  end.

(** ** JSON values and tokens *)

(** A number keeps the text of its literal: no claim reads its value. An
    object keeps its members in source order. *)
Inductive JValue :=
| JNull
| JBool (b : bool)
| JNumber (lexeme : jsstring)
| JString (s : jsstring)
| JArray (elements : list JValue)
| JObject (members : list (jsstring * JValue)).

Inductive token :=
| TLBracket | TRBracket | TLBrace | TRBrace | TComma | TColon
| TString (s : jsstring)
| TNumber (lexeme : jsstring)
| TTrue | TFalse | TNull.

(** ** The JSON lexer (ECMA-404 grammar, as [JSON.parse] reads it)

    One code unit is consumed per step, so the lexer is a structural
    recursion on the text and needs no fuel. *)

(** Where the lexer stands inside a number literal: an optional minus, then
    0 or a digit 1-9 followed by digits, then an optional fraction (a dot and
    one or more digits), then an optional exponent (e or E, an optional sign,
    one or more digits). *)
Inductive num_state :=
| NMinus | NZero | NInt | NDot | NFrac | NExp | NExpSign | NExpDigits.

Inductive lex_state :=
| LDefault
| LStr (acc : jsstring)                       (* inside a string; [acc] reversed *)
| LEsc (acc : jsstring)                       (* after a backslash *)
| LHex (acc : jsstring) (v : N) (todo : nat)  (* after the u of an escape, [todo] digits to go *)
| LNum (st : num_state) (acc : jsstring)      (* inside a number; [acc] reversed *)
| LLit (rest : jsstring) (t : token).         (* inside true / false / null *)

Definition is_ws (c : code_unit) : bool :=
  (c =? 9) || (c =? 10) || (c =? 13) || (c =? 32).

Definition is_digit (c : code_unit) : bool := (48 <=? c) && (c <=? 57).

Definition is_digit19 (c : code_unit) : bool := (49 <=? c) && (c <=? 57).

Definition is_e (c : code_unit) : bool := (c =? 101) || (c =? 69).

Definition hexval (c : code_unit) : option N :=
  if (48 <=? c) && (c <=? 57) then Some (c - 48)
  else if (97 <=? c) && (c <=? 102) then Some (c - 87)
  else if (65 <=? c) && (c <=? 70) then Some (c - 55)
  else None.

Definition num_accepting (st : num_state) : bool :=
  match st with
  | NZero | NInt | NFrac | NExpDigits => true
  | NMinus | NDot | NExp | NExpSign => false
  end.

(** The next state of a number literal on [c]; [None] when [c] does not
    continue the literal. *)
Definition num_step (st : num_state) (c : code_unit) : option num_state :=
  match st with
  | NMinus => if c =? 48 then Some NZero
              else if is_digit19 c then Some NInt else None
  | NZero => if c =? 46 then Some NDot
             else if is_e c then Some NExp else None
  | NInt => if is_digit c then Some NInt
            else if c =? 46 then Some NDot
            else if is_e c then Some NExp else None
  | NDot => if is_digit c then Some NFrac else None
  | NFrac => if is_digit c then Some NFrac
             else if is_e c then Some NExp else None
  | NExp => if (c =? 43) || (c =? 45) then Some NExpSign
            else if is_digit c then Some NExpDigits else None
  | NExpSign => if is_digit c then Some NExpDigits else None
  | NExpDigits => if is_digit c then Some NExpDigits else None
  end.

(** A step from between two tokens. *)
Definition lex_default (c : code_unit) : option (lex_state * list token) :=
  if is_ws c then Some (LDefault, [])
  else if c =? 91 then Some (LDefault, [TLBracket])
  else if c =? 93 then Some (LDefault, [TRBracket])
  else if c =? 123 then Some (LDefault, [TLBrace])
  else if c =? 125 then Some (LDefault, [TRBrace])
  else if c =? 44 then Some (LDefault, [TComma])
  else if c =? 58 then Some (LDefault, [TColon])
  else if c =? 34 then Some (LStr [], [])
  else if c =? 45 then Some (LNum NMinus [c], [])
  else if c =? 48 then Some (LNum NZero [c], [])
  else if is_digit19 c then Some (LNum NInt [c], [])
  else if c =? 116 then Some (LLit (js "rue") TTrue, [])
  else if c =? 102 then Some (LLit (js "alse") TFalse, [])
  else if c =? 110 then Some (LLit (js "ull") TNull, [])
  else None.

(** The character an escape [\c] stands for. *)
Definition unescape (c : code_unit) : option code_unit :=
  if c =? 34 then Some 34          (* quotation mark *)
  else if c =? 92 then Some 92     (* reverse solidus *)
  else if c =? 47 then Some 47     (* solidus *)
  else if c =? 98 then Some 8      (* b: backspace *)
  else if c =? 102 then Some 12    (* f: form feed *)
  else if c =? 110 then Some 10    (* n: line feed *)
  else if c =? 114 then Some 13    (* r: carriage return *)
  else if c =? 116 then Some 9     (* t: tab *)
  else None.

Definition lex_step (st : lex_state) (c : code_unit)
  : option (lex_state * list token) :=
  match st with
  | LDefault => lex_default c
  | LStr acc =>
      if c =? 34 then Some (LDefault, [TString (rev acc)])
      else if c =? 92 then Some (LEsc acc, [])
      else if c <? 32 then None
      else Some (LStr (c :: acc), [])
  | LEsc acc =>
      if c =? 117 then Some (LHex acc 0 4, [])
      else match unescape c with
           | Some u => Some (LStr (u :: acc), [])
           | None => None
           end
  | LHex acc v todo =>
      match hexval c with
      | None => None
      | Some h =>
          match todo with
          | O => None
          | S O => Some (LStr ((v * 16 + h) :: acc), [])
          | S todo' => Some (LHex acc (v * 16 + h) todo', [])
          end
      end
  | LNum ns acc =>
      match num_step ns c with
      | Some ns' => Some (LNum ns' (c :: acc), [])
      | None =>
          if num_accepting ns then
            match lex_default c with
            | Some (st', ts) => Some (st', TNumber (rev acc) :: ts)
            | None => None
            end
          else None
      end
  | LLit rest t =>
      match rest with
      | [] => None
      | x :: rest' =>
          if c =? x then
            match rest' with
            | [] => Some (LDefault, [t])
            | _ :: _ => Some (LLit rest' t, [])
            end
          else None
      end
  end.

(** At the end of the text only a finished token may be open. *)
Definition lex_eof (st : lex_state) : option (list token) :=
  match st with
  | LDefault => Some []
  | LNum ns acc => if num_accepting ns then Some [TNumber (rev acc)] else None
  | LStr _ | LEsc _ | LHex _ _ _ | LLit _ _ => None
  end.

Fixpoint lex (st : lex_state) (text : jsstring) : option (list token) :=
  match text with
  | [] => lex_eof st
  | c :: rest =>
      match lex_step st c with
      | None => None
      | Some (st', ts) =>
          match lex st' rest with
          | None => None
          | Some more => Some (ts ++ more)
          end
      end
  end.

(** ** The JSON parser

    A pushdown reading of the token list: one token per step, the open
    arrays and objects on a stack. *)

Inductive frame :=
| InArray (acc : list JValue)                           (* elements so far, reversed *)
| InObject (acc : list (jsstring * JValue)) (key : jsstring). (* members so far, reversed, and the name whose value is being read *)

Inductive expect :=
| EValue                                        (* a value starts here *)
| EValueOrClose                                 (* just after [ *)
| EKeyOrClose                                   (* just after { *)
| EKey (acc : list (jsstring * JValue))         (* after , in an object *)
| EColon (acc : list (jsstring * JValue)) (key : jsstring)
| EDone (v : JValue).                           (* a value is complete *)

(** The value a token starts, for the tokens that are a value by themselves. *)
Definition scalar (t : token) : option JValue :=
  match t with
  | TString s => Some (JString s)
  | TNumber n => Some (JNumber n)
  | TTrue => Some (JBool true)
  | TFalse => Some (JBool false)
  | TNull => Some JNull
  | _ => None
  end.

Definition parse_step (t : token) (stack : list frame) (e : expect)
  : option (list frame * expect) :=
  match e with
  | EValue =>
      match t with
      | TLBracket => Some (InArray [] :: stack, EValueOrClose)
      | TLBrace => Some (stack, EKeyOrClose)
      | _ => match scalar t with
             | Some v => Some (stack, EDone v)
             | None => None
             end
      end
  | EValueOrClose =>
      match t with
      | TRBracket =>
          match stack with
          | InArray acc :: stack' => Some (stack', EDone (JArray (rev acc)))
          | _ => None
          end
      | TLBracket => Some (InArray [] :: stack, EValueOrClose)
      | TLBrace => Some (stack, EKeyOrClose)
      | _ => match scalar t with
             | Some v => Some (stack, EDone v)
             | None => None
             end
      end
  | EKeyOrClose =>
      match t with
      | TRBrace => Some (stack, EDone (JObject []))
      | TString k => Some (stack, EColon [] k)
      | _ => None
      end
  | EKey acc =>
      match t with
      | TString k => Some (stack, EColon acc k)
      | _ => None
      end
  | EColon acc k =>
      match t with
      | TColon => Some (InObject acc k :: stack, EValue)
      | _ => None
      end
  | EDone v =>
      match t, stack with
      | TComma, InArray acc :: stack' => Some (InArray (v :: acc) :: stack', EValue)
      | TComma, InObject acc k :: stack' => Some (stack', EKey ((k, v) :: acc))
      | TRBracket, InArray acc :: stack' =>
          Some (stack', EDone (JArray (rev (v :: acc))))
      | TRBrace, InObject acc k :: stack' =>
          Some (stack', EDone (JObject (rev ((k, v) :: acc))))
      | _, _ => None
      end
  end.

Fixpoint parse (toks : list token) (stack : list frame) (e : expect)
  : option JValue :=
  match toks with
  | [] => match e, stack with
          | EDone v, [] => Some v
          | _, _ => None
          end
  | t :: toks' =>
      match parse_step t stack e with
      | None => None
      | Some (stack', e') => parse toks' stack' e'
      end
  end.

(** [JSON.parse(text)]: [None] is the [SyntaxError] it throws. *)
Definition JSON_parse (text : jsstring) : option JValue :=
  match lex LDefault text with
  | None => None
  | Some toks => parse toks [] EValue
  end.

(** ** [JSON.stringify] on an array of strings *)

Definition is_high_surrogate (c : code_unit) : bool :=
  (55296 <=? c) && (c <=? 56319).

Definition is_low_surrogate (c : code_unit) : bool :=
  (56320 <=? c) && (c <=? 57343).

(** One lowercase hexadecimal digit. *)
Definition hexdigit (d : N) : code_unit :=
  if d <? 10 then 48 + d else 87 + d.

(** [UnicodeEscape]: a backslash, u and four hexadecimal digits. *)
Definition unicode_escape (c : code_unit) : jsstring :=
  [92; 117; hexdigit (c / 4096 mod 16); hexdigit (c / 256 mod 16);
   hexdigit (c / 16 mod 16); hexdigit (c mod 16)].

(** A code unit that is not part of a surrogate pair, as [QuoteJSONString]
    writes it: the short escapes, a unicode escape for the other control
    characters and for a lone surrogate, the unit itself otherwise. *)
Definition quote_unit (c : code_unit) : jsstring :=
  if c =? 8 then [92; 98]
  else if c =? 9 then [92; 116]
  else if c =? 10 then [92; 110]
  else if c =? 12 then [92; 102]
  else if c =? 13 then [92; 114]
  else if c =? 34 then [92; 34]
  else if c =? 92 then [92; 92]
  else if (c <? 32) || is_high_surrogate c || is_low_surrogate c
       then unicode_escape c
  else [c].

(** The string is read by code points: a high surrogate followed by a low
    one is a pair and is copied as it is. *)
Fixpoint quote_units (s : jsstring) : jsstring :=
  match s with
  | [] => []
  | c :: s' =>
      match s' with
      | d :: s'' =>
          if is_high_surrogate c && is_low_surrogate d
          then c :: d :: quote_units s''
          else quote_unit c ++ quote_units s'
      | [] => quote_unit c
      end
  end.

(** [QuoteJSONString]. *)
Definition quote (s : jsstring) : jsstring := 34 :: quote_units s ++ [34].

(** The elements of an array, separated by commas. *)
Fixpoint join_quoted (l : list jsstring) : jsstring :=
  match l with
  | [] => []
  | [s] => quote s
  | s :: l' => quote s ++ 44 :: join_quoted l'
  end.

(** [JSON.stringify(updated)] for [updated : string[]]. *)
Definition JSON_stringify (l : list jsstring) : jsstring :=
  91 :: join_quoted l ++ [93].

(** The tokens of the elements of an array of strings. *)
Fixpoint string_tokens (l : list jsstring) : list token :=
  match l with
  | [] => []
  | s :: l' =>
      match l' with
      | [] => [TString s]
      | _ :: _ => TString s :: TComma :: string_tokens l'
      end
  end.

(** The array of strings a parsed value is, if it is one. *)
Fixpoint as_strings (elements : list JValue) : option (list jsstring) :=
  match elements with
  | [] => Some []
  | JString s :: rest =>
      match as_strings rest with
      | Some l => Some (s :: l)
      | None => None
      end
  | _ :: _ => None
  end.

Definition as_string_array (v : JValue) : option (list jsstring) :=
  match v with
  | JArray elements => as_strings elements
  | _ => None
  end.

(** ** The persistent store: [localStorage] *)

Module Storage.

(** The browser's key-value store of strings. Quota and access errors of
    the browser are outside the model: a write always succeeds. *)
Abbreviation t := (gmap (list N) (list N)) (only parsing).

(** [localStorage.getItem(key)]: [None] is [null]. *)
Definition getItem (ls : t) (key : jsstring) : option jsstring := ls !! key.

(** [localStorage.setItem(key, value)]. *)
Definition setItem (ls : t) (key value : jsstring) : t := <[key := value]> ls.

End Storage.

(** ** The provider: [ProgressProvider] *)

(** [const STORAGE_KEY = 'completedDocs'] *)
Definition STORAGE_KEY : jsstring := js "completedDocs".

(** What a consumer sees of the provider: the state [completed], declared
    [string[]], and the [localStorage] the two closures [toggleComplete] and
    [isCompleted] work on. *)
Record Store := mkStore {
  completed : list jsstring;
  localStorage : Storage.t
}.

Inductive exn :=
| SyntaxError                 (* thrown by [JSON.parse] *)
| Error (message : string).   (* [new Error(message)] *)

Inductive result (A : Type) :=
| Ok (a : A)
| Throw (e : exn).
Arguments Ok {A} a.
Arguments Throw {A} e.

(** The first render: [useState<string[]>([])]. *)
Definition mount (ls : Storage.t) : Store :=
  {| completed := []; localStorage := ls |}.

(** [localStorage.getItem(STORAGE_KEY) || '[]']: [null] and the empty string
    are falsy. *)
Definition stored_text (ls : Storage.t) : jsstring :=
  match Storage.getItem ls STORAGE_KEY with
  | None => js "[]"
  | Some [] => js "[]"
  | Some (c :: text) => c :: text
  end.

(** How the effect of the provider ends. The state is declared [string[]];
    [stored] comes out of [JSON.parse] untyped and [setCompleted] takes it
    as it is, so a parsed value of another shape is reported with its own
    constructor: the operations below are those of the declared type. *)
Inductive hydration :=
| Hydrated (st : Store)            (* [stored] is an array of strings *)
| OffType (stored : JValue)        (* [stored] is valid JSON of another shape *)
| Thrown (e : exn).                (* the effect threw *)

(** The effect run once after the first render:
    [const stored = JSON.parse(localStorage.getItem(STORAGE_KEY) || '[]');
     setCompleted(stored);]
    There is no [try] around it. *)
Definition hydrate (st : Store) : hydration :=
  match JSON_parse (stored_text (localStorage st)) with
  | None => Thrown SyntaxError
  | Some stored =>
      match as_string_array stored with
      | Some l => Hydrated {| completed := l; localStorage := localStorage st |}
      | None => OffType stored
      end
  end.

(** Mounting the provider over a given [localStorage]: the spec's
    [initialize()]. *)
Definition initialize (ls : Storage.t) : hydration := hydrate (mount ls).

(** [completed.includes(docId)] on an array of strings. *)
Definition includes (l : list jsstring) (docId : jsstring) : bool :=
  existsb (fun id => str_eqb id docId) l.

(** [const isCompleted = (docId) => completed.includes(docId)] *)
Definition isCompleted (st : Store) (docId : jsstring) : bool :=
  includes (completed st) docId.

(** [toggleComplete]: the next state and the write to [localStorage]. *)
Definition toggleComplete (st : Store) (docId : jsstring) : Store :=
  let updated :=
    if includes (completed st) docId
    then List.filter (fun id => negb (str_eqb id docId)) (completed st)
    else completed st ++ [docId] in
  {| completed := updated;
     localStorage :=
       Storage.setItem (localStorage st) STORAGE_KEY (JSON_stringify updated) |}.

(** A sequence of clicks, each seeing the state the previous one left. *)
Definition toggle_all (st : Store) (docIds : list jsstring) : Store :=
  fold_left toggleComplete docIds st.

(** ** The hook: [useProgress] *)

(** [useContext(ProgressContext)]: the value of the nearest provider, or the
    default of [createContext], which is [undefined]. *)
Definition useContext (provider : option Store) : option Store := provider.

Definition useProgress (provider : option Store) : result Store :=
  match useContext provider with
  | None => Throw (Error "useProgress must be used within a ProgressProvider")
  | Some context => Ok context
  end.

(** ** The consumers *)

(** A string in a condition: the empty string is falsy. *)
Definition truthy (s : jsstring) : bool :=
  match s with
  | [] => false
  | _ :: _ => true
  end.

(** [pathname.replace(/^\/docs\//, '')]: the pattern is anchored at the start
    and is not global, so it removes the prefix once. *)
Definition strip_docs_prefix (pathname : jsstring) : jsstring :=
  if starts_with (js "/docs/") pathname then drop 6 pathname else pathname.

(** [.replace(/\/$/, '')]: the one slash at the very end, if there is one. *)
Fixpoint strip_trailing_slash (s : jsstring) : jsstring :=
  match s with
  | [] => []
  | c :: s' =>
      match s' with
      | [] => if c =? 47 then [] else [c]
      | _ :: _ => c :: strip_trailing_slash s'
      end
  end.

(** [const docId = location.pathname.replace(...).replace(...)] *)
Definition derive_docId (pathname : jsstring) : jsstring :=
  strip_trailing_slash (strip_docs_prefix pathname).

(** The text of the button. In the source: the paragraph is "not read" when
    it is completed (the click will unmark it), "read" otherwise. *)
Inductive button_label :=
| MarkNotRead
| MarkRead.

(** What [FooterWrapper] returns: the original footer alone, or the footer
    followed by the button that calls [toggleComplete(docId)]. *)
Inductive footer_view :=
| OriginalFooterOnly
| FooterWithToggle (docId : jsstring) (backgroundColor : string)
                   (label : button_label).

Definition FooterWrapper (provider : option Store) (pathname : jsstring)
  : result footer_view :=
  match useProgress provider with
  | Throw e => Throw e
  | Ok context =>
      let docId := derive_docId pathname in
      if negb (truthy docId) || str_eqb docId [] ||
         negb (String_includes docId (js "/"))
      then Ok OriginalFooterOnly
      else Ok (FooterWithToggle docId
                 (if isCompleted context docId then "gray" else "green")%string
                 (if isCompleted context docId then MarkNotRead else MarkRead))
  end.

(** [onClick={() => toggleComplete(docId)}] *)
Definition onClick (context : Store) (view : footer_view) : Store :=
  match view with
  | OriginalFooterOnly => context
  | FooterWithToggle docId _ _ => toggleComplete context docId
  end.

(** The sidebar item [LinkWrapper] reads: [item.type] and [item.docId]. *)
Record sidebar_item := mkItem {
  item_type : jsstring;
  item_docId : option jsstring
}.

Inductive link_view :=
| OriginalLinkOnly
| LinkWithIndicator (indicatorClass : string).

Definition LinkWrapper (provider : option Store) (item : sidebar_item)
  : result link_view :=
  match useProgress provider with
  | Throw e => Throw e
  | Ok context =>
      match item_docId item with
      | Some docId =>
          if str_eqb (item_type item) (js "link") && truthy docId then
            Ok (LinkWithIndicator
                  ("progress-indicator " ++
                   (if isCompleted context docId
                    then "progress-indicator-completed" else ""))%string)
          else Ok OriginalLinkOnly
      | None => Ok OriginalLinkOnly
      end
  end.

(** ** The states the provider goes through *)

(** A store state: what [initialize] leaves, and what a click on a toggle
    button makes of a store state. *)
Inductive reachable : Store -> Prop :=
| reach_initialize ls st : initialize ls = Hydrated st -> reachable st
| reach_toggle st docId : reachable st -> reachable (toggleComplete st docId).

(** Whether the persisted representation lists [docId]: what a provider
    mounted over [ls] would answer. *)
Definition persisted_isCompleted (ls : Storage.t) (docId : jsstring) : bool :=
  match initialize ls with
  | Hydrated st => isCompleted st docId
  | OffType _ | Thrown _ => false
  end.

(** The number of occurrences of [docId] in the array. *)
Definition occurrences (l : list jsstring) (docId : jsstring) : nat :=
  length (List.filter (fun id => str_eqb id docId) l).

(** ** The edit link of a page: [editUrl] in [docusaurus.config.ts] *)

(** [s.replace(pattern, replacement)] with a string pattern: the first
    occurrence only. The replacements of the source hold no [$], so they are
    inserted as they are. *)
Fixpoint String_replace (s pattern replacement : jsstring) : jsstring :=
  if starts_with pattern s then replacement ++ drop (length pattern) s
  else match s with
       | [] => []
       | c :: s' => c :: String_replace s' pattern replacement
       end.

Definition edit_root : jsstring :=
  js "https://github.com/moexalgo/moexalgo.github.io/edit/main/".

Definition editUrl (docPath : jsstring) : jsstring :=
  if starts_with (js "examples/") docPath then
    let notebookPath :=
      String_replace (String_replace docPath (js ".mdx") (js ".ipynb"))
        (js "docs/") [] in
    edit_root ++ notebookPath
  else edit_root ++ js "docs/" ++ docPath.

(** ** Persisted values used in the scenarios *)

(** The text of the JSON array that holds the string lessonA. *)
Definition lessonA_text : jsstring := 91 :: 34 :: js "lessonA" ++ [34; 93].

(** The text of the JSON array that holds the string a twice. *)
Definition duplicated_text : jsstring := [91; 34; 97; 34; 44; 34; 97; 34; 93].

(** The JSON array of the strings a and b, written with a space around every
    token, as [JSON.stringify] would not write it. *)
Definition spaced_text : jsstring :=
  [91; 32; 34; 97; 34; 32; 44; 32; 34; 98; 34; 32; 93].

(** * Properties *)

(** ** The scenarios, evaluated *)

Example parse_not_json : JSON_parse (js "not json") = None.
Proof. reflexivity. Qed.

Example parse_duplicated_text :
  JSON_parse duplicated_text = Some (JArray [JString (js "a"); JString (js "a")]).
Proof. reflexivity. Qed.

Example parse_nested :
  JSON_parse (js " [ [], {}, -1.5e+3, true, null ] ")
  = Some (JArray [JArray []; JObject []; JNumber (js "-1.5e+3");
                  JBool true; JNull]).
Proof. reflexivity. Qed.

Example parse_trailing_comma : JSON_parse (js "[1,]") = None.
Proof. reflexivity. Qed.

Example stringify_lessonA : JSON_stringify [js "lessonA"] = lessonA_text.
Proof. reflexivity. Qed.

(** A valid JSON text that is no array of strings reaches [setCompleted]. *)
Example initialize_number :
  initialize (Storage.setItem ∅ STORAGE_KEY (js "5")) = OffType (JNumber (js "5")).
Proof. vm_compute; reflexivity. Qed.

(** The store mounted over the persisted array holding lessonA, and a click
    on the button of lessonB. *)
Example scenario_lessonA :
  let st := {| completed := [js "lessonA"];
               localStorage := Storage.setItem ∅ STORAGE_KEY lessonA_text |} in
  initialize (Storage.setItem ∅ STORAGE_KEY lessonA_text) = Hydrated st
  /\ isCompleted st (js "lessonA") = true
  /\ isCompleted st (js "lessonB") = false
  /\ isCompleted (toggleComplete st (js "lessonB")) (js "lessonB") = true
  /\ Storage.getItem (localStorage (toggleComplete st (js "lessonB"))) STORAGE_KEY
     = Some (JSON_stringify [js "lessonA"; js "lessonB"]).
Proof. vm_compute. repeat split. Qed.

Example scenario_module2 :
  derive_docId (js "/docs/module2") = js "module2"
  /\ FooterWrapper (Some (mount ∅)) (js "/docs/module2") = Ok OriginalFooterOnly.
Proof. split; reflexivity. Qed.

Example derive_lesson :
  derive_docId (js "/docs/module3/3-2-correlation") = js "module3/3-2-correlation"
  /\ derive_docId (js "/docs/module3/3-2-correlation/")
     = js "module3/3-2-correlation".
Proof. split; reflexivity. Qed.

(** ** Writing a string and reading it back *)

Section Lexing.

Lemma lex_silent st c st' rest :
  lex_step st c = Some (st', []) -> lex st (c :: rest) = lex st' rest.
Proof.
  intros H. simpl. rewrite H. now destruct (lex st' rest).
Qed.

Lemma lex_emit st c st' t rest :
  lex_step st c = Some (st', [t]) ->
  lex st (c :: rest) = option_map (cons t) (lex st' rest).
Proof.
  intros H. simpl. rewrite H. now destruct (lex st' rest).
Qed.

Lemma hexval_hexdigit d : d < 16 -> hexval (hexdigit d) = Some d.
Proof.
  intros H. unfold hexdigit, hexval.
  destruct (N.ltb_spec d 10) as [Hd | Hd].
  - replace ((48 <=? 48 + d) && (48 + d <=? 57)) with true.
    + f_equal. lia.
    + symmetry. apply andb_true_iff. split; apply N.leb_le; lia.
  - replace ((48 <=? 87 + d) && (87 + d <=? 57)) with false.
    + replace ((97 <=? 87 + d) && (87 + d <=? 102)) with true.
      * f_equal. lia.
      * symmetry. apply andb_true_iff. split; apply N.leb_le; lia.
    + symmetry. apply andb_false_iff. right. apply N.leb_gt. lia.
Qed.

Lemma hex4_value c :
  c < 65536 ->
  (((0 * 16 + c / 4096 mod 16) * 16 + c / 256 mod 16) * 16 + c / 16 mod 16) * 16
  + c mod 16 = c.
Proof.
  intros H.
  replace (c / 4096) with (c / 16 / 16 / 16) by now rewrite !N.Div0.div_div.
  replace (c / 256) with (c / 16 / 16) by now rewrite !N.Div0.div_div.
  assert (Hq : c / 16 / 16 / 16 < 16).
  { rewrite !N.Div0.div_div. apply N.Div0.div_lt_upper_bound. exact H. }
  rewrite (N.mod_small _ _ Hq).
  pose proof (N.Div0.div_mod c 16).
  pose proof (N.Div0.div_mod (c / 16) 16).
  pose proof (N.Div0.div_mod (c / 16 / 16) 16).
  lia.
Qed.

Lemma lex_hex_digit acc v d rest todo :
  d < 16 ->
  lex (LHex acc v (S (S todo))) (hexdigit d :: rest)
  = lex (LHex acc (v * 16 + d) (S todo)) rest.
Proof.
  intros H. apply lex_silent. simpl. now rewrite hexval_hexdigit.
Qed.

Lemma lex_hex_last acc v d rest :
  d < 16 ->
  lex (LHex acc v 1) (hexdigit d :: rest) = lex (LStr ((v * 16 + d) :: acc)) rest.
Proof.
  intros H. apply lex_silent. simpl. now rewrite hexval_hexdigit.
Qed.

Lemma lex_unicode_escape acc c rest :
  c < 65536 ->
  lex (LStr acc) (unicode_escape c ++ rest) = lex (LStr (c :: acc)) rest.
Proof.
  intros H. unfold unicode_escape. cbn [app].
  rewrite (lex_silent (LStr acc) 92 (LEsc acc)) by reflexivity.
  rewrite (lex_silent (LEsc acc) 117 (LHex acc 0 4)) by reflexivity.
  rewrite !lex_hex_digit, lex_hex_last by (apply N.mod_lt; discriminate).
  now rewrite hex4_value.
Qed.

(** Induction on a list two elements at a time, as [quote_units] reads it. *)
Lemma list_pair_ind {A} (P : list A -> Prop) :
  P [] ->
  (forall a, P [a]) ->
  (forall a b l, P l -> P (b :: l) -> P (a :: b :: l)) ->
  forall l, P l.
Proof.
  intros Hnil Hone Hstep l.
  enough (H : P l /\ forall a, P (a :: l)) by apply H.
  induction l as [| b l [IHl IHcons]]; split; auto.
Qed.

(** A unit that needs no escape is read as itself. *)
Lemma lex_raw acc c rest :
  c <> 34 -> c <> 92 -> 32 <= c ->
  lex (LStr acc) (c :: rest) = lex (LStr (c :: acc)) rest.
Proof.
  intros H34 H92 H32. apply lex_silent. simpl.
  destruct (N.eqb_spec c 34); [contradiction |].
  destruct (N.eqb_spec c 92); [contradiction |].
  destruct (N.ltb_spec c 32); [lia | reflexivity].
Qed.

Lemma surrogate_bounds c :
  is_high_surrogate c || is_low_surrogate c = true -> 55296 <= c < 65536.
Proof.
  unfold is_high_surrogate, is_low_surrogate.
  rewrite orb_true_iff, !andb_true_iff, !N.leb_le. lia.
Qed.

Lemma lex_quote_unit acc c rest :
  lex (LStr acc) (quote_unit c ++ rest) = lex (LStr (c :: acc)) rest.
Proof.
  unfold quote_unit.
  repeat match goal with
  | |- context [if ?c =? ?k then _ else _] =>
      destruct (N.eqb_spec c k) as [-> | ?];
      [cbn [app]; now repeat (erewrite lex_silent by reflexivity) |]
  end.
  destruct (_ || _ || _) eqn:Hesc.
  - apply lex_unicode_escape.
    rewrite <- orb_assoc, orb_true_iff in Hesc. destruct Hesc as [Hlt | Hsur].
    + apply N.ltb_lt in Hlt. lia.
    + apply surrogate_bounds in Hsur. lia.
  - rewrite !orb_false_iff, N.ltb_ge in Hesc. cbn [app].
    apply lex_raw; [assumption | assumption | lia].
Qed.

Lemma lex_quote_units s :
  forall acc rest,
    lex (LStr acc) (quote_units s ++ rest) = lex (LStr (rev s ++ acc)) rest.
Proof.
  induction s as [| c | c d s IHs IHds] using list_pair_ind; intros acc rest.
  - reflexivity.
  - cbn [quote_units rev app]. apply lex_quote_unit.
  - change (quote_units (c :: d :: s)) with
      (if is_high_surrogate c && is_low_surrogate d
       then c :: d :: quote_units s
       else quote_unit c ++ quote_units (d :: s)).
    destruct (is_high_surrogate c && is_low_surrogate d) eqn:Hpair.
    + apply andb_true_iff in Hpair. destruct Hpair as [Hc Hd].
      assert (55296 <= c < 65536)
        by (apply surrogate_bounds; rewrite Hc; reflexivity).
      assert (55296 <= d < 65536)
        by (apply surrogate_bounds; rewrite Hd; apply orb_true_r).
      cbn [app]. rewrite !lex_raw by lia. rewrite IHs.
      cbn [rev]. now rewrite <- !app_assoc.
    + rewrite <- app_assoc, lex_quote_unit, IHds.
      cbn [rev]. now rewrite <- !app_assoc.
Qed.

(** A quoted string is read as the one token of that string. *)
Lemma lex_quote s rest :
  lex LDefault (quote s ++ rest)
  = option_map (cons (TString s)) (lex LDefault rest).
Proof.
  unfold quote. cbn [app].
  rewrite (lex_silent LDefault 34 (LStr [])) by reflexivity.
  rewrite <- app_assoc, lex_quote_units. cbn [app].
  rewrite (lex_emit _ 34 LDefault (TString (rev (rev s ++ [])))) by reflexivity.
  now rewrite app_nil_r, rev_involutive.
Qed.

Lemma lex_join_quoted l :
  forall rest,
    lex LDefault (join_quoted l ++ rest)
    = option_map (app (string_tokens l)) (lex LDefault rest).
Proof.
  induction l as [| s l IHl]; intros rest.
  - cbn. now destruct (lex LDefault rest).
  - destruct l as [| s' l].
    + cbn [join_quoted string_tokens]. rewrite lex_quote.
      now destruct (lex LDefault rest).
    + change (join_quoted (s :: s' :: l))
        with (quote s ++ 44 :: join_quoted (s' :: l)).
      change (string_tokens (s :: s' :: l))
        with (TString s :: TComma :: string_tokens (s' :: l)).
      rewrite <- app_assoc, lex_quote. cbn [app].
      rewrite (lex_emit LDefault 44 LDefault TComma) by reflexivity.
      rewrite IHl. now destruct (lex LDefault rest).
Qed.

Lemma lex_stringify l :
  lex LDefault (JSON_stringify l)
  = Some (TLBracket :: string_tokens l ++ [TRBracket]).
Proof.
  unfold JSON_stringify.
  rewrite (lex_emit LDefault 91 LDefault TLBracket) by reflexivity.
  rewrite lex_join_quoted.
  now rewrite (lex_emit LDefault 93 LDefault TRBracket) by reflexivity.
Qed.

End Lexing.

Section Parsing.

(** Inside an open array, the tokens of one or more strings and the closing
    bracket complete the array. *)
Lemma parse_string_tokens l :
  forall s acc toks stack e,
    e = EValue \/ e = EValueOrClose ->
    parse (string_tokens (s :: l) ++ TRBracket :: toks) (InArray acc :: stack) e
    = parse toks stack
        (EDone (JArray (rev acc ++ List.map JString (s :: l)))).
Proof.
  induction l as [| s' l IHl]; intros s acc toks stack e He.
  - destruct He as [-> | ->]; reflexivity.
  - change (string_tokens (s :: s' :: l))
      with (TString s :: TComma :: string_tokens (s' :: l)).
    cbn [app].
    assert (Hstep : parse_step (TString s) (InArray acc :: stack) e
                    = Some (InArray acc :: stack, EDone (JString s)))
      by (destruct He as [-> | ->]; reflexivity).
    cbn [parse]. rewrite Hstep. cbn [parse_step].
    rewrite (IHl s' (JString s :: acc) toks stack EValue) by now left.
    cbn [rev List.map]. now rewrite <- app_assoc.
Qed.

Lemma parse_array_of_strings l :
  parse (TLBracket :: string_tokens l ++ [TRBracket]) [] EValue
  = Some (JArray (List.map JString l)).
Proof.
  destruct l as [| s l].
  - reflexivity.
  - cbn [parse parse_step].
    rewrite (parse_string_tokens l s [] [] [] EValueOrClose) by now right.
    reflexivity.
Qed.

End Parsing.

(** [JSON.parse(JSON.stringify(l))] is the array [l] again. *)
Lemma JSON_parse_stringify l :
  JSON_parse (JSON_stringify l) = Some (JArray (List.map JString l)).
Proof.
  unfold JSON_parse. rewrite lex_stringify. apply parse_array_of_strings.
Qed.

Lemma as_strings_map l : as_strings (List.map JString l) = Some l.
Proof.
  induction l as [| s l IHl]; [reflexivity |].
  cbn. now rewrite IHl.
Qed.

(** ** The array [completed] *)

Section Completed.

Implicit Types (l : list jsstring) (a b d : jsstring).

Lemma str_eqb_true a b : str_eqb a b = true <-> a = b.
Proof. unfold str_eqb. apply bool_decide_eq_true. Qed.

Lemma str_eqb_false a b : str_eqb a b = false <-> a <> b.
Proof. unfold str_eqb. apply bool_decide_eq_false. Qed.

Lemma str_eqb_refl a : str_eqb a a = true.
Proof. now apply str_eqb_true. Qed.

Lemma includes_In l d : includes l d = true <-> In d l.
Proof.
  unfold includes. rewrite existsb_exists. split.
  - intros [x [Hx Heq]]. apply str_eqb_true in Heq. now subst.
  - intros H. exists d. split; [assumption | apply str_eqb_refl].
Qed.

Lemma includes_not_In l d : includes l d = false <-> ~ In d l.
Proof.
  rewrite <- includes_In. now destruct (includes l d).
Qed.

Lemma In_remove l d x :
  In x (List.filter (fun id => negb (str_eqb id d)) l) <-> In x l /\ x <> d.
Proof.
  rewrite filter_In, negb_true_iff, str_eqb_false. reflexivity.
Qed.

Lemma includes_remove_self l d :
  includes (List.filter (fun id => negb (str_eqb id d)) l) d = false.
Proof.
  apply includes_not_In. rewrite In_remove. tauto.
Qed.

Lemma includes_add_self l d : includes (l ++ [d]) d = true.
Proof.
  apply includes_In, in_or_app. right. now left.
Qed.

Lemma includes_remove_other l a b :
  a <> b ->
  includes (List.filter (fun id => negb (str_eqb id a)) l) b = includes l b.
Proof.
  intros Hab. apply eq_true_iff_eq. rewrite !includes_In, In_remove.
  split; [tauto | intros H; split; [assumption | congruence]].
Qed.

Lemma includes_add_other l a b :
  a <> b -> includes (l ++ [a]) b = includes l b.
Proof.
  intros Hab. apply eq_true_iff_eq. rewrite !includes_In, in_app_iff.
  cbn. split; [intros [H | [H | []]]; [assumption | contradiction] | tauto].
Qed.

Lemma occurrences_In l d : (1 <= occurrences l d)%nat <-> In d l.
Proof.
  unfold occurrences. split.
  - destruct (List.filter _ l) as [| x f] eqn:Hf; cbn; [lia | intros _].
    assert (Hx : In x (List.filter (fun id => str_eqb id d) l))
      by (rewrite Hf; now left).
    apply filter_In in Hx. destruct Hx as [Hx Heq].
    apply str_eqb_true in Heq. now subst.
  - intros H.
    assert (Hd : In d (List.filter (fun id => str_eqb id d) l))
      by (apply filter_In; split; [assumption | apply str_eqb_refl]).
    destruct (List.filter _ l); [destruct Hd | cbn; lia].
Qed.

Lemma occurrences_zero l d : occurrences l d = 0%nat <-> ~ In d l.
Proof.
  rewrite <- occurrences_In. lia.
Qed.

End Completed.

(** ** Reading the slot back *)

Section Hydration.

Implicit Types (ls : gmap (list N) (list N)) (st : Store) (l : list jsstring).

Lemma stringify_nonempty l : exists c text, JSON_stringify l = c :: text.
Proof. unfold JSON_stringify. eauto. Qed.

Lemma initialize_parsed ls l :
  JSON_parse (stored_text ls) = Some (JArray (List.map JString l)) ->
  initialize ls = Hydrated {| completed := l; localStorage := ls |}.
Proof.
  intros H. unfold initialize, hydrate. cbn [mount localStorage].
  rewrite H. cbn [as_string_array]. now rewrite as_strings_map.
Qed.

Lemma initialize_absent ls :
  Storage.getItem ls STORAGE_KEY = None -> initialize ls = Hydrated (mount ls).
Proof.
  intros H. apply (initialize_parsed ls []).
  unfold stored_text. now rewrite H.
Qed.

Lemma initialize_empty_text ls :
  Storage.getItem ls STORAGE_KEY = Some [] -> initialize ls = Hydrated (mount ls).
Proof.
  intros H. apply (initialize_parsed ls []).
  unfold stored_text. now rewrite H.
Qed.

Lemma initialize_stringify ls l :
  Storage.getItem ls STORAGE_KEY = Some (JSON_stringify l) ->
  initialize ls = Hydrated {| completed := l; localStorage := ls |}.
Proof.
  intros H. apply initialize_parsed.
  unfold stored_text. rewrite H.
  destruct (stringify_nonempty l) as [c [text Hc]].
  rewrite Hc, <- Hc. apply JSON_parse_stringify.
Qed.

Lemma initialize_localStorage ls st :
  initialize ls = Hydrated st -> localStorage st = ls.
Proof.
  unfold initialize, hydrate. cbn [mount localStorage].
  destruct (JSON_parse _) as [v |]; [| discriminate].
  destruct (as_string_array v); [| discriminate].
  intros [= <-]. reflexivity.
Qed.

Lemma toggleComplete_slot st d :
  Storage.getItem (localStorage (toggleComplete st d)) STORAGE_KEY
  = Some (JSON_stringify (completed (toggleComplete st d))).
Proof.
  unfold toggleComplete, Storage.getItem, Storage.setItem.
  cbn [localStorage completed]. apply lookup_insert_eq.
Qed.

Lemma toggleComplete_other_keys st d key :
  key <> STORAGE_KEY ->
  Storage.getItem (localStorage (toggleComplete st d)) key
  = Storage.getItem (localStorage st) key.
Proof.
  intros Hkey. unfold toggleComplete, Storage.getItem, Storage.setItem.
  cbn [localStorage]. apply lookup_insert_ne. congruence.
Qed.

(** After a toggle the slot holds the state: mounting again gives it back. *)
Lemma toggleComplete_consistent st d :
  initialize (localStorage (toggleComplete st d)) = Hydrated (toggleComplete st d).
Proof.
  rewrite (initialize_stringify _ (completed (toggleComplete st d)))
    by apply toggleComplete_slot.
  now destruct (toggleComplete st d).
Qed.

Lemma initialize_consistent ls st :
  initialize ls = Hydrated st -> initialize (localStorage st) = Hydrated st.
Proof.
  intros H. now rewrite (initialize_localStorage ls st H).
Qed.

Lemma reachable_consistent st :
  reachable st -> initialize (localStorage st) = Hydrated st.
Proof.
  intros [ls st' H | st' d _].
  - now apply initialize_consistent with ls.
  - apply toggleComplete_consistent.
Qed.

Lemma toggle_all_consistent docIds :
  forall st,
    initialize (localStorage st) = Hydrated st ->
    initialize (localStorage (toggle_all st docIds))
    = Hydrated (toggle_all st docIds).
Proof.
  induction docIds as [| d docIds IH]; intros st H.
  - exact H.
  - cbn. apply IH, toggleComplete_consistent.
Qed.

End Hydration.

(** ** The claims about the provider *)

(** C1, as stated, fails: with the slot holding the text [not json] the
    effect ends in the [SyntaxError] of [JSON.parse], not in an empty
    completion set. *)
Lemma initialize_not_json_throws :
  Storage.getItem (Storage.setItem ∅ STORAGE_KEY (js "not json")) STORAGE_KEY
  = Some (js "not json")
  /\ JSON_parse (js "not json") = None
  /\ initialize (Storage.setItem ∅ STORAGE_KEY (js "not json"))
     = Thrown SyntaxError
  /\ ~ (exists st,
          initialize (Storage.setItem ∅ STORAGE_KEY (js "not json"))
          = Hydrated st /\ completed st = []).
Proof.
  assert (H : initialize (Storage.setItem ∅ STORAGE_KEY (js "not json"))
              = Thrown SyntaxError) by (vm_compute; reflexivity).
  split; [vm_compute; reflexivity |].
  split; [vm_compute; reflexivity |].
  split; [exact H |].
  intros [st [Hst _]]. rewrite H in Hst. discriminate.
Qed.

(** C1 (amended): when the slot holds a text that is not valid JSON,
    [initialize] gives the empty completion set only if that text is the
    empty string (which [||] replaces by an empty array); for any other such
    text it ends in the uncaught [SyntaxError] of [JSON.parse]. *)
Theorem initialize_invalid_json (ls : gmap (list N) (list N)) (text : jsstring) :
  Storage.getItem ls STORAGE_KEY = Some text ->
  JSON_parse text = None ->
  initialize ls = match text with
                  | [] => Hydrated (mount ls)
                  | _ :: _ => Thrown SyntaxError
                  end.
Proof.
  intros Hget Hparse. destruct text as [| c text].
  - now apply initialize_empty_text.
  - unfold initialize, hydrate, stored_text. cbn [mount localStorage].
    now rewrite Hget, Hparse.
Qed.

Lemma initialize_invalid_json_witness :
  Storage.getItem (Storage.setItem ∅ STORAGE_KEY (js "not json")) STORAGE_KEY
  = Some (js "not json")
  /\ JSON_parse (js "not json") = None
  /\ initialize (Storage.setItem ∅ STORAGE_KEY (js "not json"))
     = Thrown SyntaxError.
Proof.
  split; [vm_compute; reflexivity |].
  split; [vm_compute; reflexivity |].
  apply (initialize_invalid_json _ (js "not json")); vm_compute; reflexivity.
Defined.

(** C6: with the storage key absent, [initialize] completes without an
    error, the completion set is empty and [isCompleted] is [false] for
    every string. *)
Theorem initialize_fresh (ls : gmap (list N) (list N)) :
  Storage.getItem ls STORAGE_KEY = None ->
  exists st,
    initialize ls = Hydrated st
    /\ completed st = []
    /\ forall d, isCompleted st d = false.
Proof.
  intros H. exists (mount ls). split; [now apply initialize_absent |].
  split; reflexivity.
Qed.

Lemma initialize_fresh_witness :
  Storage.getItem (∅ : gmap (list N) (list N)) STORAGE_KEY = None
  /\ exists st,
       initialize ∅ = Hydrated st
       /\ completed st = []
       /\ forall d, isCompleted st d = false.
Proof.
  split; [reflexivity | apply (initialize_fresh ∅); reflexivity].
Defined.

(** C2: toggling the same identifier twice in a row restores
    [isCompleted] of that identifier, in every store state. *)
Theorem toggleComplete_twice (st : Store) (docId : jsstring) :
  isCompleted (toggleComplete (toggleComplete st docId) docId) docId
  = isCompleted st docId.
Proof.
  unfold isCompleted, toggleComplete. cbn [completed].
  destruct (includes (completed st) docId) eqn:Hin.
  - rewrite includes_remove_self. apply includes_add_self.
  - rewrite includes_add_self. apply includes_remove_self.
Qed.

(** C3: [toggleComplete(docId)] removes [docId] when it is a member and adds
    it otherwise, every other identifier staying as it was; the new array is
    then written, as a JSON array of strings, under [STORAGE_KEY], in place
    of what the slot held, and no other key is touched. *)
Theorem toggleComplete_spec (st : Store) (docId : jsstring) :
  isCompleted (toggleComplete st docId) docId = negb (isCompleted st docId)
  /\ (forall x, x <> docId ->
        (In x (completed (toggleComplete st docId)) <-> In x (completed st)))
  /\ Storage.getItem (localStorage (toggleComplete st docId)) STORAGE_KEY
     = Some (JSON_stringify (completed (toggleComplete st docId)))
  /\ JSON_parse (JSON_stringify (completed (toggleComplete st docId)))
     = Some (JArray (List.map JString (completed (toggleComplete st docId))))
  /\ (forall key, key <> STORAGE_KEY ->
        Storage.getItem (localStorage (toggleComplete st docId)) key
        = Storage.getItem (localStorage st) key).
Proof.
  split; [| split; [| split; [| split]]].
  - unfold isCompleted, toggleComplete. cbn [completed].
    destruct (includes (completed st) docId).
    + apply includes_remove_self.
    + apply includes_add_self.
  - intros x Hx. unfold toggleComplete. cbn [completed].
    destruct (includes (completed st) docId).
    + rewrite In_remove. tauto.
    + rewrite in_app_iff. cbn. split; [| tauto].
      intros [H | [H | []]]; [assumption | congruence].
  - apply toggleComplete_slot.
  - apply JSON_parse_stringify.
  - intros key. apply toggleComplete_other_keys.
Qed.

(** C4: after any sequence of [toggleComplete] calls on a freshly
    initialized store, a new provider mounted over the persisted store is
    hydrated with the same completion set: the same array, hence the same
    membership. *)
Theorem reinitialize_roundtrip
  (ls : gmap (list N) (list N)) (st : Store) (docIds : list jsstring) :
  initialize ls = Hydrated st ->
  exists st',
    initialize (localStorage (toggle_all st docIds)) = Hydrated st'
    /\ completed st' = completed (toggle_all st docIds)
    /\ forall d, isCompleted st' d = isCompleted (toggle_all st docIds) d.
Proof.
  intros H. exists (toggle_all st docIds).
  split; [| split; reflexivity].
  apply toggle_all_consistent. now apply initialize_consistent with ls.
Qed.

Lemma reinitialize_roundtrip_witness :
  initialize (Storage.setItem ∅ STORAGE_KEY lessonA_text)
  = Hydrated {| completed := [js "lessonA"];
                localStorage := Storage.setItem ∅ STORAGE_KEY lessonA_text |}
  /\ exists st',
       initialize
         (localStorage
            (toggle_all
               {| completed := [js "lessonA"];
                  localStorage := Storage.setItem ∅ STORAGE_KEY lessonA_text |}
               [js "lessonB"; js "lessonA"; js "lessonC"]))
       = Hydrated st'
       /\ completed st'
          = completed
              (toggle_all
                 {| completed := [js "lessonA"];
                    localStorage := Storage.setItem ∅ STORAGE_KEY lessonA_text |}
                 [js "lessonB"; js "lessonA"; js "lessonC"])
       /\ forall d,
            isCompleted st' d
            = isCompleted
                (toggle_all
                   {| completed := [js "lessonA"];
                      localStorage := Storage.setItem ∅ STORAGE_KEY lessonA_text |}
                   [js "lessonB"; js "lessonA"; js "lessonC"]) d.
Proof.
  split; [vm_compute; reflexivity |].
  apply (reinitialize_roundtrip (Storage.setItem ∅ STORAGE_KEY lessonA_text)).
  vm_compute; reflexivity.
Defined.

(** C5: toggling [a] leaves [isCompleted b] as it was for every [b] other
    than [a]: in the state, in the slot just written (which says of [b] what
    the state said), and so, in every store state, in the slot compared with
    what it held before. *)
Theorem toggleComplete_isolation (st : Store) (a b : jsstring) :
  a <> b ->
  isCompleted (toggleComplete st a) b = isCompleted st b
  /\ persisted_isCompleted (localStorage (toggleComplete st a)) b
     = isCompleted st b
  /\ (reachable st ->
      persisted_isCompleted (localStorage (toggleComplete st a)) b
      = persisted_isCompleted (localStorage st) b).
Proof.
  intros Hab.
  assert (Hmem : isCompleted (toggleComplete st a) b = isCompleted st b).
  { unfold isCompleted, toggleComplete. cbn [completed].
    destruct (includes (completed st) a).
    - now apply includes_remove_other.
    - now apply includes_add_other. }
  assert (Hslot : persisted_isCompleted (localStorage (toggleComplete st a)) b
                  = isCompleted st b).
  { unfold persisted_isCompleted. now rewrite toggleComplete_consistent. }
  split; [exact Hmem |]. split; [exact Hslot |].
  intros Hreach. rewrite Hslot. unfold persisted_isCompleted.
  now rewrite (reachable_consistent st Hreach).
Qed.

Lemma toggleComplete_isolation_witness :
  js "lessonB" <> js "lessonA"
  /\ isCompleted
       (toggleComplete
          {| completed := [js "lessonA"];
             localStorage := Storage.setItem ∅ STORAGE_KEY lessonA_text |}
          (js "lessonB")) (js "lessonA")
     = true
  /\ persisted_isCompleted
       (localStorage
          (toggleComplete
             {| completed := [js "lessonA"];
                localStorage := Storage.setItem ∅ STORAGE_KEY lessonA_text |}
             (js "lessonB"))) (js "lessonA")
     = persisted_isCompleted (Storage.setItem ∅ STORAGE_KEY lessonA_text)
         (js "lessonA").
Proof.
  split; [discriminate |].
  destruct (toggleComplete_isolation
              {| completed := [js "lessonA"];
                 localStorage := Storage.setItem ∅ STORAGE_KEY lessonA_text |}
              (js "lessonB") (js "lessonA")) as [Hmem [_ Hslot]];
    [discriminate |].
  split; [exact Hmem |].
  apply Hslot.
  apply (reach_initialize (Storage.setItem ∅ STORAGE_KEY lessonA_text)).
  vm_compute; reflexivity.
Defined.

(** C7, as stated, fails: a persisted array that repeats an identifier is
    loaded with its repetitions. *)
Lemma initialize_keeps_duplicates :
  exists st,
    initialize (Storage.setItem ∅ STORAGE_KEY duplicated_text) = Hydrated st
    /\ completed st = [js "a"; js "a"]
    /\ ~ List.NoDup (completed st).
Proof.
  exists {| completed := [js "a"; js "a"];
            localStorage := Storage.setItem ∅ STORAGE_KEY duplicated_text |}.
  split; [vm_compute; reflexivity |]. split; [reflexivity |].
  cbn [completed]. intros Hnd. apply NoDup_cons_iff in Hnd.
  destruct Hnd as [Hnotin _]. apply Hnotin. now left.
Qed.

Lemma toggleComplete_NoDup (st : Store) (d : jsstring) :
  List.NoDup (completed st) -> List.NoDup (completed (toggleComplete st d)).
Proof.
  intros Hnd. unfold toggleComplete. cbn [completed].
  destruct (includes (completed st) d) eqn:Hin.
  - now apply List.NoDup_filter.
  - apply includes_not_In in Hin. apply List.NoDup_app.
    + exact Hnd.
    + apply List.NoDup_cons; [intros [] | constructor].
    + intros x Hx [<- | []]. contradiction.
Qed.

Lemma toggle_all_NoDup (docIds : list jsstring) :
  forall st,
    List.NoDup (completed st) -> List.NoDup (completed (toggle_all st docIds)).
Proof.
  induction docIds as [| d docIds IH]; intros st Hnd; [exact Hnd |].
  cbn. now apply IH, toggleComplete_NoDup.
Qed.

Lemma as_strings_inv (elements : list JValue) :
  forall l, as_strings elements = Some l -> elements = List.map JString l.
Proof.
  induction elements as [| v elements IH]; intros l H.
  - injection H as <-. reflexivity.
  - destruct v; try discriminate. cbn in H.
    destruct (as_strings elements) as [l' |]; [| discriminate].
    injection H as <-. cbn. f_equal. now apply IH.
Qed.

(** What [initialize] hydrates is the array the stored text spells, so the
    condition of the theorem below holds of every hydration without
    duplicates. *)
Lemma initialize_Hydrated_inv (ls : gmap (list N) (list N)) (st : Store) :
  initialize ls = Hydrated st ->
  JSON_parse (stored_text ls) = Some (JArray (List.map JString (completed st))).
Proof.
  unfold initialize, hydrate. cbn [mount localStorage].
  destruct (JSON_parse (stored_text ls)) as [v |]; [| discriminate].
  destruct v; try discriminate. cbn [as_string_array].
  destruct (as_strings elements) as [l |] eqn:Hl; [| discriminate].
  intros [= <-]. cbn [completed]. f_equal. f_equal. now apply as_strings_inv.
Qed.

(** C7 (amended): the completion array has no duplicates after [initialize]
    whenever the persisted value, or the text of the empty array that stands
    in for an absent key and for an empty value, is JSON for an array of
    pairwise distinct strings, however it is spelled; and every
    [toggleComplete], from any state without duplicates, leaves a state
    without duplicates. *)
Theorem no_duplicates_invariant
  (ls : gmap (list N) (list N)) (l : list jsstring) :
  JSON_parse (stored_text ls) = Some (JArray (List.map JString l)) ->
  List.NoDup l ->
  (exists st,
     initialize ls = Hydrated st
     /\ completed st = l
     /\ List.NoDup (completed st)
     /\ forall docIds, List.NoDup (completed (toggle_all st docIds)))
  /\ (forall st' d,
        List.NoDup (completed st') ->
        List.NoDup (completed (toggleComplete st' d))).
Proof.
  intros Hparse Hnd. split; [| apply toggleComplete_NoDup].
  exists {| completed := l; localStorage := ls |}.
  split; [now apply initialize_parsed |]. split; [reflexivity |].
  split; [exact Hnd |].
  intros docIds. now apply toggle_all_NoDup.
Qed.

Lemma no_duplicates_invariant_witness :
  (* the key absent *)
  (exists st,
     initialize ∅ = Hydrated st
     /\ completed st = []
     /\ List.NoDup (completed st)
     /\ forall docIds, List.NoDup (completed (toggle_all st docIds)))
  (* the empty string under the key *)
  /\ (exists st,
        initialize (Storage.setItem ∅ STORAGE_KEY []) = Hydrated st
        /\ completed st = []
        /\ List.NoDup (completed st)
        /\ forall docIds, List.NoDup (completed (toggle_all st docIds)))
  (* an array spelled with spaces *)
  /\ JSON_parse (stored_text (Storage.setItem ∅ STORAGE_KEY spaced_text))
     = Some (JArray (List.map JString [js "a"; js "b"]))
  /\ List.NoDup [js "a"; js "b"]
  /\ (exists st,
        initialize (Storage.setItem ∅ STORAGE_KEY spaced_text) = Hydrated st
        /\ completed st = [js "a"; js "b"]
        /\ List.NoDup (completed st)
        /\ forall docIds, List.NoDup (completed (toggle_all st docIds))).
Proof.
  assert (Hab : List.NoDup [js "a"; js "b"]).
  { apply List.NoDup_cons; [cbn; intuition discriminate |].
    apply List.NoDup_cons; [intros [] | constructor]. }
  split.
  { apply (no_duplicates_invariant ∅ []);
      [vm_compute; reflexivity | constructor]. }
  split.
  { apply (no_duplicates_invariant (Storage.setItem ∅ STORAGE_KEY []) []);
      [vm_compute; reflexivity | constructor]. }
  split; [vm_compute; reflexivity |]. split; [exact Hab |].
  apply (no_duplicates_invariant
           (Storage.setItem ∅ STORAGE_KEY spaced_text) [js "a"; js "b"]);
    [vm_compute; reflexivity | exact Hab].
Defined.

(** C10: when the array holds [docId] one or more times (a persisted array
    with duplicates is loaded as it is), one [toggleComplete(docId)] removes
    every occurrence, and [isCompleted(docId)] is [false] right after. *)
Theorem toggleComplete_removes_all (st : Store) (docId : jsstring) :
  (1 <= occurrences (completed st) docId)%nat ->
  occurrences (completed (toggleComplete st docId)) docId = 0%nat
  /\ isCompleted (toggleComplete st docId) docId = false.
Proof.
  intros Hocc. apply occurrences_In, includes_In in Hocc.
  assert (H : isCompleted (toggleComplete st docId) docId = false).
  { unfold isCompleted, toggleComplete. cbn [completed]. rewrite Hocc.
    apply includes_remove_self. }
  split; [| exact H].
  apply occurrences_zero. now apply includes_not_In.
Qed.

Lemma toggleComplete_removes_all_witness :
  initialize (Storage.setItem ∅ STORAGE_KEY duplicated_text)
  = Hydrated {| completed := [js "a"; js "a"];
                localStorage := Storage.setItem ∅ STORAGE_KEY duplicated_text |}
  /\ (1 <= occurrences [js "a"; js "a"] (js "a"))%nat
  /\ occurrences
       (completed
          (toggleComplete
             {| completed := [js "a"; js "a"];
                localStorage := Storage.setItem ∅ STORAGE_KEY duplicated_text |}
             (js "a"))) (js "a") = 0%nat
  /\ isCompleted
       (toggleComplete
          {| completed := [js "a"; js "a"];
             localStorage := Storage.setItem ∅ STORAGE_KEY duplicated_text |}
          (js "a")) (js "a") = false.
Proof.
  split; [vm_compute; reflexivity |].
  split; [vm_compute; lia |].
  apply (toggleComplete_removes_all
           {| completed := [js "a"; js "a"];
              localStorage := Storage.setItem ∅ STORAGE_KEY duplicated_text |}).
  vm_compute; lia.
Defined.

(** ** The claims about the hook and the footer *)

Section Paths.

Implicit Types (s p rest : jsstring) (c : code_unit).

Lemma starts_with_app p rest : starts_with p (p ++ rest) = true.
Proof.
  induction p as [| x p IHp]; [reflexivity |].
  cbn. now rewrite N.eqb_refl.
Qed.

Lemma starts_with_drop p :
  forall s, starts_with p s = true -> s = p ++ drop (length p) s.
Proof.
  induction p as [| x p IHp]; intros s H; [reflexivity |].
  destruct s as [| y s]; [discriminate |].
  cbn in H. apply andb_true_iff in H. destruct H as [Hxy Hp].
  apply N.eqb_eq in Hxy. subst y. cbn. f_equal. now apply IHp.
Qed.

Lemma starts_with_false p s :
  starts_with p s = false -> forall rest, s <> p ++ rest.
Proof.
  intros H rest ->. now rewrite starts_with_app in H.
Qed.

Lemma strip_docs_prefix_docs rest :
  strip_docs_prefix (js "/docs/" ++ rest) = rest.
Proof.
  unfold strip_docs_prefix. now rewrite starts_with_app.
Qed.

Lemma strip_docs_prefix_other s :
  (forall rest, s <> js "/docs/" ++ rest) -> strip_docs_prefix s = s.
Proof.
  intros H. unfold strip_docs_prefix.
  destruct (starts_with (js "/docs/") s) eqn:Hs; [| reflexivity].
  exfalso. apply (H (drop 6 s)). now apply starts_with_drop in Hs.
Qed.

Lemma strip_trailing_slash_snoc s : strip_trailing_slash (s ++ [47]) = s.
Proof.
  induction s as [| c s IHs]; [reflexivity |].
  cbn [app strip_trailing_slash]. rewrite IHs.
  now destruct s.
Qed.

Lemma strip_trailing_slash_other s :
  (forall t, s <> t ++ [47]) -> strip_trailing_slash s = s.
Proof.
  induction s as [| c s IHs]; intros H; [reflexivity |].
  destruct s as [| d s].
  - cbn. destruct (N.eqb_spec c 47) as [-> | ?]; [| reflexivity].
    now destruct (H []).
  - change (c :: strip_trailing_slash (d :: s) = c :: d :: s).
    rewrite IHs; [reflexivity |].
    intros t Ht. apply (H (c :: t)). now rewrite Ht.
Qed.

Lemma String_includes_unit s c : String_includes s [c] = true <-> In c s.
Proof.
  induction s as [| x s IHs]; cbn.
  - split; [discriminate | intros []].
  - rewrite orb_true_iff, andb_true_r, N.eqb_eq, IHs. split.
    + intros [-> | H]; [now left | now right].
    + intros [-> | H]; [now left | now right].
Qed.

Lemma truthy_nonempty s : truthy s = false <-> s = [].
Proof. destruct s; cbn; split; congruence. Qed.

End Paths.

(** C8: outside a provider the hook throws its configuration error, it
    returns no default, and both consumers, which call the hook first, end in
    the same error. *)
Theorem useProgress_outside_provider :
  useProgress None
  = Throw (Error "useProgress must be used within a ProgressProvider")
  /\ (forall context, useProgress None <> Ok context)
  /\ (forall item,
        LinkWrapper None item
        = Throw (Error "useProgress must be used within a ProgressProvider"))
  /\ (forall pathname,
        FooterWrapper None pathname
        = Throw (Error "useProgress must be used within a ProgressProvider")).
Proof.
  split; [reflexivity |]. split; [discriminate |]. split; reflexivity.
Qed.

(** C9: the identifier is the path without a leading [/docs/] and without
    the slash at its very end; when it is empty or has no [/] the footer is
    returned alone, and when it has a [/] the footer comes with the toggle
    button for that identifier. *)
Theorem FooterWrapper_eligibility (context : Store) (pathname : jsstring) :
  ((forall rest, pathname = js "/docs/" ++ rest ->
      derive_docId pathname = strip_trailing_slash rest)
   /\ ((forall rest, pathname <> js "/docs/" ++ rest) ->
       derive_docId pathname = strip_trailing_slash pathname)
   /\ (forall s, strip_trailing_slash (s ++ js "/") = s)
   /\ (forall s, (forall t, s <> t ++ js "/") -> strip_trailing_slash s = s))
  /\ (derive_docId pathname = [] \/ ~ In 47 (derive_docId pathname) ->
      FooterWrapper (Some context) pathname = Ok OriginalFooterOnly)
  /\ (In 47 (derive_docId pathname) ->
      FooterWrapper (Some context) pathname
      = Ok (FooterWithToggle (derive_docId pathname)
              (if isCompleted context (derive_docId pathname)
               then "gray" else "green")%string
              (if isCompleted context (derive_docId pathname)
               then MarkNotRead else MarkRead))).
Proof.
  split; [| split].
  - split; [| split; [| split]].
    + intros rest ->. unfold derive_docId. now rewrite strip_docs_prefix_docs.
    + intros H. unfold derive_docId. now rewrite strip_docs_prefix_other.
    + apply strip_trailing_slash_snoc.
    + apply strip_trailing_slash_other.
  - intros H. unfold FooterWrapper. cbn [useProgress useContext].
    cbv zeta. destruct H as [-> | H]; [reflexivity |].
    destruct (String_includes _ (js "/")) eqn:Hsep.
    + apply String_includes_unit in Hsep. contradiction.
    + now rewrite !orb_true_r.
  - intros H. unfold FooterWrapper. cbn [useProgress useContext]. cbv zeta.
    assert (Hsep : String_includes (derive_docId pathname) (js "/") = true)
      by now apply String_includes_unit.
    rewrite Hsep. destruct (derive_docId pathname) as [| c d]; [destruct H |].
    reflexivity.
Qed.

Lemma FooterWrapper_eligibility_witness :
  FooterWrapper (Some (mount ∅)) (js "/docs/module2") = Ok OriginalFooterOnly
  /\ FooterWrapper (Some (mount ∅)) (js "/docs/module3/3-2-correlation/")
     = Ok (FooterWithToggle (js "module3/3-2-correlation") "green" MarkRead).
Proof.
  split.
  - apply (FooterWrapper_eligibility (mount ∅) (js "/docs/module2")).
    right. vm_compute. intuition discriminate.
  - apply (FooterWrapper_eligibility (mount ∅)
             (js "/docs/module3/3-2-correlation/")).
    vm_compute. tauto.
Defined.

(** * Further properties of the code *)

(** ** Counting identifiers *)

Section Counting.

Implicit Types (l : list jsstring) (a b d x : jsstring).

Lemma occurrences_cons a l d :
  occurrences (a :: l) d
  = ((if str_eqb a d then 1 else 0) + occurrences l d)%nat.
Proof.
  unfold occurrences. cbn [List.filter]. now destruct (str_eqb a d).
Qed.

Lemma occurrences_app l1 l2 d :
  occurrences (l1 ++ l2) d = (occurrences l1 d + occurrences l2 d)%nat.
Proof.
  unfold occurrences. now rewrite List.filter_app, length_app.
Qed.

Lemma occurrences_remove_other l x d :
  x <> d ->
  occurrences (List.filter (fun id => negb (str_eqb id x)) l) d
  = occurrences l d.
Proof.
  intros Hxd. induction l as [| a l IHl]; [reflexivity |].
  cbn [List.filter]. destruct (str_eqb a x) eqn:Hax; cbn [negb].
  - apply str_eqb_true in Hax. subst a. rewrite occurrences_cons, IHl.
    now replace (str_eqb x d) with false by (symmetry; now apply str_eqb_false).
  - now rewrite !occurrences_cons, IHl.
Qed.

Lemma occurrences_remove_self l d :
  occurrences (List.filter (fun id => negb (str_eqb id d)) l) d = 0%nat.
Proof.
  apply occurrences_zero, includes_not_In, includes_remove_self.
Qed.

Lemma remove_absent l d :
  ~ In d l -> List.filter (fun id => negb (str_eqb id d)) l = l.
Proof.
  induction l as [| a l IHl]; intros Hd; [reflexivity |].
  cbn [List.filter].
  replace (str_eqb a d) with false.
  - cbn [negb]. f_equal. apply IHl. intros H. apply Hd. now right.
  - symmetry. apply str_eqb_false. intros ->. apply Hd. now left.
Qed.

Lemma remove_length l d :
  (length (List.filter (fun id => negb (str_eqb id d)) l) + occurrences l d
   = length l)%nat.
Proof.
  unfold occurrences. induction l as [| a l IHl]; [reflexivity |].
  cbn [List.filter]. destruct (str_eqb a d); cbn [negb length]; lia.
Qed.

(** What one toggle makes of the membership of any identifier. *)
Lemma isCompleted_toggleComplete (st : Store) a x :
  isCompleted (toggleComplete st a) x
  = if str_eqb x a then negb (isCompleted st x) else isCompleted st x.
Proof.
  unfold isCompleted, toggleComplete. cbn [completed].
  destruct (str_eqb x a) eqn:Hxa.
  - apply str_eqb_true in Hxa. subst x.
    destruct (includes (completed st) a).
    + apply includes_remove_self.
    + apply includes_add_self.
  - apply str_eqb_false in Hxa.
    destruct (includes (completed st) a).
    + apply includes_remove_other. congruence.
    + apply includes_add_other. congruence.
Qed.

(** What one toggle makes of the number of occurrences of any identifier. *)
Lemma occurrences_toggleComplete (st : Store) a d :
  occurrences (completed (toggleComplete st a)) d
  = if str_eqb a d
    then (if isCompleted st d then 0 else 1)%nat
    else occurrences (completed st) d.
Proof.
  unfold isCompleted, toggleComplete. cbn [completed].
  destruct (str_eqb a d) eqn:Had.
  - apply str_eqb_true in Had. subst a.
    destruct (includes (completed st) d) eqn:Hin.
    + apply occurrences_remove_self.
    + rewrite occurrences_app, occurrences_cons, str_eqb_refl.
      apply includes_not_In, occurrences_zero in Hin. rewrite Hin.
      reflexivity.
  - apply str_eqb_false in Had.
    destruct (includes (completed st) a).
    + now apply occurrences_remove_other.
    + rewrite occurrences_app, occurrences_cons.
      replace (str_eqb a d) with false by (symmetry; now apply str_eqb_false).
      change (occurrences [] d) with 0%nat. lia.
Qed.

End Counting.

(** ** The provider, further *)

(** X1: an array of strings written under [STORAGE_KEY] the way
    [toggleComplete] writes it is read back by a provider mounted later as
    exactly that array: order, repetitions and every code unit of every
    string, whatever else the storage holds. *)
Theorem hydrate_written_array
  (ls : gmap (list N) (list N)) (l : list jsstring) :
  initialize (Storage.setItem ls STORAGE_KEY (JSON_stringify l))
  = Hydrated {| completed := l;
                localStorage :=
                  Storage.setItem ls STORAGE_KEY (JSON_stringify l) |}.
Proof.
  apply initialize_stringify.
  unfold Storage.getItem, Storage.setItem. apply lookup_insert_eq.
Qed.

(** X2: the effect throws exactly when the slot holds a text that is not
    empty and is not valid JSON, and what it throws is then the
    [SyntaxError]; with the key absent or the value empty it never throws. *)
Theorem initialize_throws_iff (ls : gmap (list N) (list N)) (e : exn) :
  initialize ls = Thrown e
  <-> e = SyntaxError
      /\ exists c text,
           Storage.getItem ls STORAGE_KEY = Some (c :: text)
           /\ JSON_parse (c :: text) = None.
Proof.
  unfold initialize, hydrate, stored_text. cbn [mount localStorage].
  destruct (Storage.getItem ls STORAGE_KEY) as [[| c text] |] eqn:Hget.
  - split; [discriminate | intros [_ [c [text [H _]]]]; discriminate].
  - destruct (JSON_parse (c :: text)) as [v |] eqn:Hparse.
    + split.
      * destruct (as_string_array v); discriminate.
      * intros [_ [c' [text' [[= <- <-] H]]]]. congruence.
    + split.
      * intros [= <-]. split; [reflexivity |]. now exists c, text.
      * intros [-> _]. reflexivity.
  - split; [discriminate | intros [_ [c [text [H _]]]]; discriminate].
Qed.

(** X3: after any sequence of clicks an identifier is completed exactly when
    its membership at the start and the parity of the number of clicks on it
    say so: an odd number of toggles flips it, an even number restores it,
    and the clicks on other identifiers do not count. *)
Theorem toggle_all_parity (docIds : list jsstring) :
  forall (st : Store) (d : jsstring),
    isCompleted (toggle_all st docIds) d
    = xorb (isCompleted st d) (Nat.odd (occurrences docIds d)).
Proof.
  induction docIds as [| a docIds IH]; intros st d.
  - cbn. now rewrite xorb_false_r.
  - change (toggle_all st (a :: docIds))
      with (toggle_all (toggleComplete st a) docIds).
    rewrite IH, isCompleted_toggleComplete, occurrences_cons.
    replace (str_eqb d a) with (str_eqb a d).
    + destruct (str_eqb a d).
      * change (1 + occurrences docIds d)%nat with (S (occurrences docIds d)).
        rewrite Nat.odd_succ, <- Nat.negb_odd.
        now destruct (isCompleted st d), (Nat.odd (occurrences docIds d)).
      * reflexivity.
    + unfold str_eqb. apply bool_decide_ext. split; congruence.
Qed.

(** X4: toggles of two identifiers commute as far as membership goes: done
    in either order they leave every identifier with the same answer, in the
    state and in the slot. *)
Theorem toggleComplete_commute (st : Store) (a b x : jsstring) :
  isCompleted (toggleComplete (toggleComplete st a) b) x
  = isCompleted (toggleComplete (toggleComplete st b) a) x
  /\ persisted_isCompleted
       (localStorage (toggleComplete (toggleComplete st a) b)) x
     = persisted_isCompleted
         (localStorage (toggleComplete (toggleComplete st b) a)) x.
Proof.
  assert (H : isCompleted (toggleComplete (toggleComplete st a) b) x
              = isCompleted (toggleComplete (toggleComplete st b) a) x).
  { rewrite !isCompleted_toggleComplete.
    now destruct (str_eqb x a), (str_eqb x b). }
  split; [exact H |].
  unfold persisted_isCompleted. now rewrite !toggleComplete_consistent.
Qed.

(** X5: two toggles of the same identifier in a row restore the membership
    of every identifier; when the identifier was not completed they also
    restore the array itself and the slot holds its serialization again. *)
Theorem toggleComplete_twice_all (st : Store) (d : jsstring) :
  (forall x,
     isCompleted (toggleComplete (toggleComplete st d) d) x = isCompleted st x)
  /\ (isCompleted st d = false ->
      completed (toggleComplete (toggleComplete st d) d) = completed st
      /\ Storage.getItem
           (localStorage (toggleComplete (toggleComplete st d) d)) STORAGE_KEY
         = Some (JSON_stringify (completed st))).
Proof.
  split.
  - intros x. rewrite !isCompleted_toggleComplete.
    destruct (str_eqb x d); [apply negb_involutive | reflexivity].
  - intros Hd.
    assert (Hl : completed (toggleComplete (toggleComplete st d) d)
                 = completed st).
    { unfold isCompleted in Hd. unfold toggleComplete at 1. cbn [completed].
      change (includes (completed (toggleComplete st d)) d)
        with (isCompleted (toggleComplete st d) d).
      rewrite isCompleted_toggleComplete, str_eqb_refl.
      unfold isCompleted. rewrite Hd. cbn [negb].
      unfold toggleComplete. cbn [completed]. rewrite Hd.
      rewrite List.filter_app. cbn [List.filter]. rewrite str_eqb_refl.
      cbn [negb]. rewrite app_nil_r. apply remove_absent.
      now apply includes_not_In. }
    split; [exact Hl |]. now rewrite toggleComplete_slot, Hl.
Qed.

(** X6: a toggle of an identifier that is not completed makes the array one
    longer; a toggle of a completed one makes it shorter by the number of
    times the identifier occurred. *)
Theorem toggleComplete_length (st : Store) (d : jsstring) :
  length (completed (toggleComplete st d))
  = if isCompleted st d
    then (length (completed st) - occurrences (completed st) d)%nat
    else S (length (completed st)).
Proof.
  unfold isCompleted, toggleComplete. cbn [completed].
  destruct (includes (completed st) d).
  - pose proof (remove_length (completed st) d). lia.
  - rewrite length_app. cbn. lia.
Qed.

(** X7: in every store state the slot and the state agree: a provider
    mounted over the storage of that state is hydrated with that very state,
    so the slot answers [isCompleted] as the state does. *)
Theorem reachable_persisted_agrees (st : Store) :
  reachable st ->
  initialize (localStorage st) = Hydrated st
  /\ forall d, persisted_isCompleted (localStorage st) d = isCompleted st d.
Proof.
  intros Hreach.
  assert (H : initialize (localStorage st) = Hydrated st)
    by now apply reachable_consistent.
  split; [exact H |].
  intros d. unfold persisted_isCompleted. now rewrite H.
Qed.

Lemma reachable_persisted_agrees_witness :
  reachable
    (toggleComplete
       {| completed := [js "a"; js "a"];
          localStorage := Storage.setItem ∅ STORAGE_KEY duplicated_text |}
       (js "b"))
  /\ persisted_isCompleted
       (localStorage
          (toggleComplete
             {| completed := [js "a"; js "a"];
                localStorage := Storage.setItem ∅ STORAGE_KEY duplicated_text |}
             (js "b"))) (js "b")
     = true.
Proof.
  assert (Hreach : reachable
            (toggleComplete
               {| completed := [js "a"; js "a"];
                  localStorage :=
                    Storage.setItem ∅ STORAGE_KEY duplicated_text |}
               (js "b"))).
  { apply reach_toggle.
    apply (reach_initialize (Storage.setItem ∅ STORAGE_KEY duplicated_text)).
    vm_compute; reflexivity. }
  split; [exact Hreach |].
  destruct (reachable_persisted_agrees _ Hreach) as [_ Hagree].
  rewrite Hagree. vm_compute; reflexivity.
Defined.

Lemma toggle_all_occurrences_le (docIds : list jsstring) :
  forall (st : Store) (d : jsstring),
    (occurrences (completed st) d <= 1)%nat ->
    (occurrences (completed (toggle_all st docIds)) d <= 1)%nat.
Proof.
  induction docIds as [| a docIds IH]; intros st d H; [exact H |].
  change (toggle_all st (a :: docIds))
    with (toggle_all (toggleComplete st a) docIds).
  apply IH. rewrite occurrences_toggleComplete.
  destruct (str_eqb a d); [destruct (isCompleted st d); lia | exact H].
Qed.

(** X8: once an identifier has been toggled it occurs at most once in the
    array, whatever the array held before (a persisted array may repeat it)
    and whatever is toggled afterwards. *)
Theorem toggled_occurs_at_most_once
  (st : Store) (d : jsstring) (docIds : list jsstring) :
  (occurrences (completed (toggle_all (toggleComplete st d) docIds)) d <= 1)%nat.
Proof.
  apply toggle_all_occurrences_le. rewrite occurrences_toggleComplete.
  rewrite str_eqb_refl. destruct (isCompleted st d); lia.
Qed.

(** ** The consumers, further *)

(** X9: on a page whose identifier has a [/], a click on the button flips
    the completion of that identifier: the button is rendered again with the
    other colour and label, the sidebar link of the same document gets the
    other indicator class, and the links of all other documents render as
    before. *)
Theorem click_flips_button_and_indicator
  (context : Store) (pathname : jsstring) :
  In 47 (derive_docId pathname) ->
  exists view,
    FooterWrapper (Some context) pathname = Ok view
    /\ isCompleted (onClick context view) (derive_docId pathname)
       = negb (isCompleted context (derive_docId pathname))
    /\ FooterWrapper (Some (onClick context view)) pathname
       = Ok (FooterWithToggle (derive_docId pathname)
               (if negb (isCompleted context (derive_docId pathname))
                then "gray" else "green")%string
               (if negb (isCompleted context (derive_docId pathname))
                then MarkNotRead else MarkRead))
    /\ (forall item,
          item_type item = js "link" ->
          item_docId item = Some (derive_docId pathname) ->
          LinkWrapper (Some (onClick context view)) item
          = Ok (LinkWithIndicator
                  ("progress-indicator " ++
                   (if negb (isCompleted context (derive_docId pathname))
                    then "progress-indicator-completed" else ""))%string))
    /\ (forall item,
          item_docId item <> Some (derive_docId pathname) ->
          LinkWrapper (Some (onClick context view)) item
          = LinkWrapper (Some context) item).
Proof.
  intros Hsep.
  assert (Hinc : String_includes (derive_docId pathname) (js "/") = true)
    by now apply String_includes_unit.
  assert (Htruthy : truthy (derive_docId pathname) = true)
    by (destruct (derive_docId pathname); [destruct Hsep | reflexivity]).
  assert (Hne : str_eqb (derive_docId pathname) [] = false)
    by (apply str_eqb_false; intros H; rewrite H in Hsep; destruct Hsep).
  assert (Hview : forall ctx,
            FooterWrapper (Some ctx) pathname
            = Ok (FooterWithToggle (derive_docId pathname)
                    (if isCompleted ctx (derive_docId pathname)
                     then "gray" else "green")%string
                    (if isCompleted ctx (derive_docId pathname)
                     then MarkNotRead else MarkRead))).
  { intros ctx. unfold FooterWrapper. cbn [useProgress useContext]. cbv zeta.
    now rewrite Htruthy, Hne, Hinc. }
  eexists. split; [apply Hview |]. cbn [onClick].
  assert (Hflip : isCompleted (toggleComplete context (derive_docId pathname))
                    (derive_docId pathname)
                  = negb (isCompleted context (derive_docId pathname)))
    by now rewrite isCompleted_toggleComplete, str_eqb_refl.
  split; [exact Hflip |]. split; [now rewrite Hview, Hflip |]. split.
  - intros item Htype Hid. unfold LinkWrapper. cbn [useProgress useContext].
    rewrite Hid, Htype, str_eqb_refl, Htruthy, Hflip. reflexivity.
  - intros item Hid. unfold LinkWrapper. cbn [useProgress useContext].
    destruct (item_docId item) as [d |]; [| reflexivity].
    rewrite isCompleted_toggleComplete.
    replace (str_eqb d (derive_docId pathname)) with false; [reflexivity |].
    symmetry. apply str_eqb_false. congruence.
Qed.

Lemma click_flips_button_and_indicator_witness :
  In 47 (derive_docId (js "/docs/module8/8-1-risks"))
  /\ exists view,
       FooterWrapper (Some (mount ∅)) (js "/docs/module8/8-1-risks") = Ok view
       /\ FooterWrapper (Some (onClick (mount ∅) view))
            (js "/docs/module8/8-1-risks")
          = Ok (FooterWithToggle (js "module8/8-1-risks") "gray" MarkNotRead).
Proof.
  assert (Hsep : In 47 (derive_docId (js "/docs/module8/8-1-risks")))
    by (vm_compute; tauto).
  split; [exact Hsep |].
  destruct (click_flips_button_and_indicator
              (mount ∅) (js "/docs/module8/8-1-risks") Hsep)
    as [view [Hview [_ [Hafter _]]]].
  exists view. split; [exact Hview | exact Hafter].
Defined.

(** X10: a page under [/docs/] has the same identifier with and without a
    slash at the end of its path, so both addresses share one completion
    entry and render the same footer. *)
Theorem trailing_slash_same_page (context : Store) (id : jsstring) :
  (forall t, id <> t ++ js "/") ->
  derive_docId (js "/docs/" ++ id) = id
  /\ derive_docId (js "/docs/" ++ id ++ js "/") = id
  /\ FooterWrapper (Some context) (js "/docs/" ++ id ++ js "/")
     = FooterWrapper (Some context) (js "/docs/" ++ id).
Proof.
  intros Hid.
  assert (H1 : derive_docId (js "/docs/" ++ id) = id).
  { unfold derive_docId. rewrite strip_docs_prefix_docs.
    now apply strip_trailing_slash_other. }
  assert (H2 : derive_docId (js "/docs/" ++ id ++ js "/") = id).
  { unfold derive_docId. rewrite strip_docs_prefix_docs.
    apply strip_trailing_slash_snoc. }
  split; [exact H1 |]. split; [exact H2 |].
  unfold FooterWrapper. cbn [useProgress useContext]. cbv zeta.
  now rewrite H1, H2.
Qed.

Lemma trailing_slash_same_page_witness :
  (forall t, js "module8/8-1-risks" <> t ++ js "/")
  /\ derive_docId (js "/docs/" ++ js "module8/8-1-risks" ++ js "/")
     = js "module8/8-1-risks".
Proof.
  assert (Hid : forall t, js "module8/8-1-risks" <> t ++ js "/").
  { intros t H. apply (f_equal (@rev N)) in H.
    rewrite rev_app_distr in H. cbn in H. discriminate. }
  split; [exact Hid |].
  apply (trailing_slash_same_page (mount ∅) (js "module8/8-1-risks") Hid).
Defined.

(** X11: the guard looks only for a [/] in the identifier, and a path that
    does not start with [/docs/] keeps its leading slash: every such path
    other than the root [/] gets the button, with an identifier that begins
    with a slash. *)
Theorem FooterWrapper_outside_docs (context : Store) (rest : jsstring) :
  rest <> [] ->
  starts_with (js "/docs/") (47 :: rest) = false ->
  derive_docId (47 :: rest) = 47 :: strip_trailing_slash rest
  /\ FooterWrapper (Some context) (47 :: rest)
     = Ok (FooterWithToggle (47 :: strip_trailing_slash rest)
             (if isCompleted context (47 :: strip_trailing_slash rest)
              then "gray" else "green")%string
             (if isCompleted context (47 :: strip_trailing_slash rest)
              then MarkNotRead else MarkRead)).
Proof.
  intros Hrest Hdocs.
  assert (Hid : derive_docId (47 :: rest) = 47 :: strip_trailing_slash rest).
  { unfold derive_docId, strip_docs_prefix. rewrite Hdocs.
    destruct rest as [| c rest]; [contradiction | reflexivity]. }
  split; [exact Hid |].
  unfold FooterWrapper. cbn [useProgress useContext]. cbv zeta.
  rewrite Hid. cbn [truthy negb orb].
  replace (str_eqb (47 :: strip_trailing_slash rest) []) with false
    by (symmetry; now apply str_eqb_false).
  replace (String_includes (47 :: strip_trailing_slash rest) (js "/"))
    with true by (symmetry; apply String_includes_unit; now left).
  reflexivity.
Qed.

Lemma FooterWrapper_outside_docs_witness :
  js "docs" <> []
  /\ starts_with (js "/docs/") (47 :: js "docs") = false
  /\ FooterWrapper (Some (mount ∅)) (js "/docs")
     = Ok (FooterWithToggle (js "/docs") "green" MarkRead).
Proof.
  split; [discriminate |]. split; [reflexivity |].
  apply (FooterWrapper_outside_docs (mount ∅) (js "docs"));
    [discriminate | reflexivity].
Defined.

(** ** The edit link *)

Section Replacing.

Implicit Types (s pre post pat rep : jsstring) (h c : code_unit).

(** Without an occurrence of the pattern nothing is replaced. *)
Lemma String_replace_absent s pat rep :
  String_includes s pat = false -> String_replace s pat rep = s.
Proof.
  induction s as [| c s IHs]; cbn; intros H;
    apply orb_false_iff in H; destruct H as [Hstart Hrest]; rewrite Hstart.
  - reflexivity.
  - f_equal. now apply IHs.
Qed.

(** The occurrence that follows a prefix free of the first unit of the
    pattern is the first one, and it is the one replaced. *)
Lemma String_replace_first pre h pat post rep :
  ~ In h pre ->
  String_replace (pre ++ (h :: pat) ++ post) (h :: pat) rep
  = pre ++ rep ++ post.
Proof.
  intros Hpre. induction pre as [| c pre IHpre].
  - cbn [app]. change (h :: pat ++ post) with ((h :: pat) ++ post).
    destruct post as [| p post].
    + rewrite app_nil_r.
      destruct pat as [| q pat]; cbn [String_replace].
      * cbn [starts_with]. rewrite N.eqb_refl. cbn.
        reflexivity.
      * pose proof (starts_with_app (h :: q :: pat) []) as Hs.
        rewrite app_nil_r in Hs. rewrite Hs.
        pose proof (drop_app_length (h :: q :: pat) (@nil N)) as Hd.
        rewrite app_nil_r in Hd. now rewrite Hd.
    + cbn [app String_replace].
      change (h :: pat ++ p :: post) with ((h :: pat) ++ p :: post).
      rewrite starts_with_app, drop_app_length. reflexivity.
  - cbn [app String_replace starts_with].
    replace (h =? c) with false.
    + cbn [andb]. f_equal. apply IHpre. intros H. apply Hpre. now right.
    + symmetry. apply N.eqb_neq. intros ->. apply Hpre. now left.
Qed.

End Replacing.

(** X13: for a notebook page, a path [examples/<name>.mdx] whose name has no
    dot and whose notebook path has no [docs/] in it, the edit link is the
    repository's edit root followed by [examples/<name>.ipynb]. *)
Theorem editUrl_notebook (name : jsstring) :
  ~ In 46 name ->
  String_includes (js "examples/" ++ name ++ js ".ipynb") (js "docs/") = false ->
  editUrl (js "examples/" ++ name ++ js ".mdx")
  = edit_root ++ js "examples/" ++ name ++ js ".ipynb".
Proof.
  intros Hdot Hdocs. unfold editUrl. rewrite starts_with_app. cbv zeta.
  f_equal.
  assert (Hfirst : String_replace (js "examples/" ++ name ++ js ".mdx")
                     (js ".mdx") (js ".ipynb")
                   = js "examples/" ++ name ++ js ".ipynb").
  { pose proof (String_replace_first (js "examples/" ++ name) 46 (js "mdx")
                  [] (js ".ipynb")) as H.
    rewrite !app_nil_r, <- !app_assoc in H. apply H.
    intros Hin. apply in_app_or in Hin. destruct Hin as [Hin | Hin].
    - cbn in Hin. intuition discriminate.
    - contradiction. }
  rewrite Hfirst. now apply String_replace_absent.
Qed.

Lemma editUrl_notebook_witness :
  ~ In 46 (js "intro/first_steps")
  /\ String_includes (js "examples/" ++ js "intro/first_steps" ++ js ".ipynb")
       (js "docs/") = false
  /\ editUrl (js "examples/intro/first_steps.mdx")
     = js "https://github.com/moexalgo/moexalgo.github.io/edit/main/examples/intro/first_steps.ipynb".
Proof.
  assert (Hdot : ~ In 46 (js "intro/first_steps"))
    by (cbn; intuition discriminate).
  split; [exact Hdot |]. split; [reflexivity |].
  apply (editUrl_notebook (js "intro/first_steps") Hdot). reflexivity.
Defined.

(** X14: the second replacement removes the first [docs/] of the path: for
    a notebook page directly under [examples/docs/], with no dot in the rest
    of its name, the edit link names [examples/<name>.ipynb] and the [docs/]
    segment of the path is gone. *)
Theorem editUrl_drops_docs_segment (name : jsstring) :
  ~ In 46 name ->
  editUrl (js "examples/docs/" ++ name ++ js ".mdx")
  = edit_root ++ js "examples/" ++ name ++ js ".ipynb".
Proof.
  intros Hdot. unfold editUrl.
  change (js "examples/docs/") with (js "examples/" ++ js "docs/").
  rewrite <- app_assoc, starts_with_app. cbv zeta. f_equal.
  assert (Hfirst : String_replace
                     (js "examples/" ++ js "docs/" ++ name ++ js ".mdx")
                     (js ".mdx") (js ".ipynb")
                   = js "examples/" ++ js "docs/" ++ name ++ js ".ipynb").
  { pose proof (String_replace_first (js "examples/" ++ js "docs/" ++ name)
                  46 (js "mdx") [] (js ".ipynb")) as H.
    rewrite !app_nil_r, <- !app_assoc in H. apply H.
    intros Hin. apply in_app_or in Hin. destruct Hin as [Hin | Hin].
    - cbn in Hin. intuition discriminate.
    - apply in_app_or in Hin. destruct Hin as [Hin | Hin].
      + cbn in Hin. intuition discriminate.
      + contradiction. }
  rewrite Hfirst.
  pose proof (String_replace_first (js "examples/") 100 (js "ocs/")
                (name ++ js ".ipynb") []) as H.
  cbn [app] in H. apply H. cbn. intuition discriminate.
Qed.

Lemma editUrl_drops_docs_segment_witness :
  ~ In 46 (js "guide")
  /\ editUrl (js "examples/docs/guide.mdx")
     = js "https://github.com/moexalgo/moexalgo.github.io/edit/main/examples/guide.ipynb".
Proof.
  assert (Hdot : ~ In 46 (js "guide")) by (cbn; intuition discriminate).
  split; [exact Hdot |].
  apply (editUrl_drops_docs_segment (js "guide") Hdot).
Defined.
